(** * sm-chat: the WebSocket room relay of [app/routers/chat.py]

    A shallow embedding of the connection manager, the WebSocket endpoint
    and the chat REST handlers, with the properties of the design
    document stated and settled against them. *)

From stdpp Require Import ssreflect gmap strings list fin_maps pretty sorting.
From Stdlib Require Import ZArith Lia.

Set Warnings "-rewrite-rw,-deprecated,-clear-no-such-hyp".

(** ** Python values shared by the handlers *)

(** A [WebSocket] object is compared and hashed by identity; the model
    keeps that identity as a number. *)
Abbreviation WebSocket := nat (only parsing).

(** The exception classes that can cross the code under study. *)
Inductive Exc :=
  | WebSocketDisconnect
  | CancelledError
  | SQLAlchemyError
  | RedisError
  | RuntimeError
  | KeyError.

#[global] Instance Exc_eq_dec : EqDecision Exc.
Proof. solve_decision. Defined.

(** ** asyncio tasks

    [asyncio.create_task] returns a fresh [Task]; the model keeps every
    task ever created in a table and uses the index as the handle.  A task
    is [Running] from its creation until [cancel] is called on it. *)

Inductive TaskState := Running | Cancelled.

#[global] Instance TaskState_eq_dec : EqDecision TaskState.
Proof. solve_decision. Defined.

Record Task := mkTask { task_room : string; task_state : TaskState }.

#[global] Instance Task_eq_dec : EqDecision Task.
Proof. solve_decision. Defined.

Definition create_task (chat_id : string) (tasks : list Task) : nat * list Task :=
  (length tasks, tasks ++ [mkTask chat_id Running]).

Definition cancel_task (t : nat) (tasks : list Task) : list Task :=
  alter (fun tk => mkTask (task_room tk) Cancelled) t tasks.

(** ** ConnectionManager *)

Module ConnectionManager.

(** [rooms] and [redis_tasks] are the two dictionaries of the class;
    [tasks] is the event loop's task table the handles point into. *)
Record t := mk {
  rooms : gmap string (gset nat);
  redis_tasks : gmap string nat;
  tasks : list Task
}.

(** [ConnectionManager()] *)
Definition init : t := mk ∅ ∅ [].

(** [connect], after [websocket.accept()] has returned. *)
Definition connect (chat_id : string) (websocket : WebSocket) (m : t) : t :=
  let conns := default ∅ (rooms m !! chat_id) in
  let rooms' := <[chat_id := conns ∪ {[websocket]}]> (rooms m) in
  match redis_tasks m !! chat_id with
  | Some _ => mk rooms' (redis_tasks m) (tasks m)
  | None =>
      let '(h, tasks') := create_task chat_id (tasks m) in
      mk rooms' (<[chat_id := h]> (redis_tasks m)) tasks'
  end.

(** [disconnect]. The body has no suspension point.  A missing
    [redis_tasks] entry raises [KeyError] after [del self.rooms[chat_id]]. *)
Definition disconnect (chat_id : string) (websocket : WebSocket) (m : t)
  : t * option Exc :=
  match rooms m !! chat_id with
  | None => (m, None)
  | Some conns =>
      let conns' := conns ∖ {[websocket]} in
      let rooms' := <[chat_id := conns']> (rooms m) in
      if decide (conns' = ∅) then
        let rooms'' := delete chat_id rooms' in
        match redis_tasks m !! chat_id with
        | None => (mk rooms'' (redis_tasks m) (tasks m), Some KeyError)
        | Some h =>
            (mk rooms'' (delete chat_id (redis_tasks m)) (cancel_task h (tasks m)),
             None)
        end
      else (mk rooms' (redis_tasks m) (tasks m), None)
  end.

(** The connections registered for a room, and their number. *)
Definition members (chat_id : string) (m : t) : gset nat :=
  default ∅ (rooms m !! chat_id).

Definition connection_count (chat_id : string) (m : t) : nat :=
  size (members chat_id m).

(** The state of the task behind a handle. *)
Definition state_of (h : nat) (m : t) : option TaskState :=
  task_state <$> tasks m !! h.

(** *** Broadcast

    [for connection in self.rooms[chat_id]: await connection.send_text(message)].
    A Python set is iterated in an order the language does not fix:
    [set_iter] is that order.  [send_text] answers [true] when the send
    returns and [false] when it raises.  The loop has no handler, so the
    first raise leaves the loop and the method. *)
Fixpoint send_all (send_text : WebSocket -> bool) (conns : list WebSocket)
  : list WebSocket * option WebSocket :=
  match conns with
  | [] => ([], None)
  | c :: rest =>
      if send_text c then
        let '(sent, failed) := send_all send_text rest in (c :: sent, failed)
      else ([], Some c)
  end.

(** The result of a broadcast: the manager afterwards, the connections
    the message was delivered to, in order, and the connection whose
    send raised, if one did. *)
Record broadcast_result := mk_result {
  after : t;
  delivered : list WebSocket;
  raised_at : option WebSocket
}.

Definition broadcast (set_iter : gset nat -> list WebSocket)
    (send_text : WebSocket -> bool) (chat_id : string) (m : t)
  : broadcast_result :=
  match rooms m !! chat_id with
  | Some conns =>
      let '(sent, failed) := send_all send_text (set_iter conns) in
      mk_result m sent failed
  | None => mk_result m [] None
  end.

End ConnectionManager.

Module CM := ConnectionManager.

(** ** Sequences of registry operations *)

Inductive RegistryOp :=
  | OpConnect (chat_id : string) (websocket : WebSocket)
  | OpDisconnect (chat_id : string) (websocket : WebSocket).

Definition apply_op (op : RegistryOp) (m : CM.t) : CM.t * option Exc :=
  match op with
  | OpConnect c w => (CM.connect c w m, None)
  | OpDisconnect c w => CM.disconnect c w m
  end.

(** Runs the operations from left to right and collects what was raised. *)
Fixpoint run_ops (ops : list RegistryOp) (m : CM.t) : CM.t * list Exc :=
  match ops with
  | [] => (m, [])
  | op :: rest =>
      let '(m1, e) := apply_op op m in
      let '(m2, es) := run_ops rest m1 in
      (m2, option_list e ++ es)
  end.

(** ** Broadcast and failing connections *)


(** Two connections in room r1; every send to connection 1 raises. *)
Definition two_in_room : CM.t :=
  (run_ops [OpConnect "r1" 1; OpConnect "r1" 2] CM.init).1.

Definition send_fails_on_1 (w : WebSocket) : bool := negb (w =? 1).

(** ** The relational store *)

(** Modelled from the spec: [app.models] ([User], [Chat], [Message]) is not
    among the sources.  The rows carry the fields the handlers read and
    write: a room has an identifier, a name and its participants; a message
    has an identifier, its room, the sender, the content and a timestamp.
    [User.chats] is the other side of [Chat.participants]. *)
Record User := mkUser { user_id : string; username : string }.

Record Chat := mkChat {
  Chat_id : string;
  Chat_name : string;
  participants : list User
}.

Record Message := mkMessage {
  msg_id : nat;
  msg_chat_id : string;
  sender : string;
  content : string;
  timestamp : Z
}.

#[global] Instance User_eq_dec : EqDecision User.
Proof. solve_decision. Defined.
#[global] Instance Chat_eq_dec : EqDecision Chat.
Proof. solve_decision. Defined.
#[global] Instance Message_eq_dec : EqDecision Message.
Proof. solve_decision. Defined.

(** The tables, with the two sequences new identifiers are drawn from. *)
Record DB := mkDB {
  users : list User;
  chats : list Chat;
  messages : list Message;
  chat_seq : nat;
  msg_seq : nat
}.

(** Modelled from the spec: the identifier a new room row receives on
    commit.  It is a string, as [chat_endpoint] compares it with the path
    parameter. *)
Definition new_chat_id (db : DB) : string := pretty (chat_seq db).

(** [select(User).where(User.id == uid)] followed by [.scalar()]. *)
Definition select_user (uid : string) (db : DB) : option User :=
  List.find (λ u, bool_decide (user_id u = uid)) (users db).

(** [user_db.chats] *)
Definition user_chats (u : User) (db : DB) : list Chat :=
  filter (λ c, u ∈ participants c) (chats db).

(** The messages of one room. *)
Definition room_messages (room : string) (db : DB) : list Message :=
  filter (λ m, msg_chat_id m = room) (messages db).

(** [ORDER BY timestamp DESC]: newest first. *)
Definition newer_or_equal (a b : Message) : Prop := (timestamp b ≤ timestamp a)%Z.

#[global] Instance newer_or_equal_dec a b : Decision (newer_or_equal a b).
Proof. unfold newer_or_equal. apply _. Defined.

#[global] Instance newer_or_equal_total : Total newer_or_equal.
Proof. intros a b. unfold newer_or_equal. lia. Qed.

#[global] Instance newer_or_equal_trans : Transitive newer_or_equal.
Proof. intros a b c. unfold newer_or_equal. lia. Qed.

Definition order_by_timestamp_desc (rows : list Message) : list Message :=
  merge_sort newer_or_equal rows.

(** The query of [get_chat_history].  The store rejects a negative
    [LIMIT]; [None] is that error. *)
Definition select_history (room : string) (limit : Z) (db : DB)
  : option (list Message) :=
  if decide (limit < 0)%Z then None
  else Some (take (Z.to_nat limit) (order_by_timestamp_desc (room_messages room db))).

(** ** REST handlers *)

Inductive Response (A : Type) :=
  | Ok (body : A)
  | HTTPException (status_code : nat)
  | ServerError (e : Exc).
Arguments Ok {A} body.
Arguments HTTPException {A} status_code.
Arguments ServerError {A} e.

(** One element of the history response. *)
Record HistoryItem := mkItem {
  item_id : nat;
  item_sender : string;
  item_content : string;
  item_timestamp : Z
}.

Definition history_item (msg : Message) : HistoryItem :=
  mkItem (msg_id msg) (sender msg) (content msg) (timestamp msg).

(** [get_chat_history(chat_id, limit, db)] *)
Definition get_chat_history (room : string) (limit : Z) (db : DB)
  : Response (list HistoryItem) :=
  match select_history room limit db with
  | None => ServerError SQLAlchemyError
  | Some [] => HTTPException 404
  | Some rows => Ok (history_item <$> rows)
  end.

(** A request for [GET /api/chat/chats/{chat_id}/messages]: the bearer
    credential it carries, if any, the path parameter and the query
    parameter. *)
Record HistoryRequest := mkHistoryRequest {
  hr_authorization : option string;
  hr_chat_id : string;
  hr_limit : option Z
}.

(** The route: its parameters are exactly those of the handler's
    signature, [limit] defaulting to 50. *)
Definition get_chat_history_route (req : HistoryRequest) (db : DB)
  : Response (list HistoryItem) :=
  get_chat_history (hr_chat_id req) (default 50%Z (hr_limit req)) db.

(** [ChatCreate] *)
Record ChatCreate := mkChatCreate { userId : string }.

(** The decoded token: its subject and display name. *)
Record Claims := mkClaims { sub : string; preferred_username : string }.

(** [create_chat(chat, user, db)]: the body of the handler, with [user]
    the value its dependency returned.  The result is the store afterwards
    and the response, whose body is the new [chat_id]. *)
Definition create_chat (chat : ChatCreate) (user : Claims) (db : DB)
  : DB * Response string :=
  let participant := userId chat in
  match select_user (sub user) db, select_user participant db with
  | Some user_db, Some user_2 =>
      let row := mkChat (new_chat_id db) "" [user_db; user_2] in
      (mkDB (users db) (chats db ++ [row]) (messages db)
            (S (chat_seq db)) (msg_seq db),
       Ok (Chat_id row))
  | _, _ => (db, HTTPException 400)
  end.

(** ** The WebSocket endpoint *)

(** [f"chat_channel:{chat_id}"] *)
Definition channel_of (chat_id : string) : string := "chat_channel:" +:+ chat_id.

(** A subscription held at the broker: the channel, and the code that
    subscribed, either the endpoint serving a connection or a listener
    task of the manager. *)
Inductive Owner :=
  | OwnerEndpoint (websocket : WebSocket)
  | OwnerListener (task : nat).

Record Subscription := mkSub { sub_channel : string; sub_owner : Owner }.

#[global] Instance Owner_eq_dec : EqDecision Owner.
Proof. solve_decision. Defined.
#[global] Instance Subscription_eq_dec : EqDecision Subscription.
Proof. solve_decision. Defined.

(** The process: the module-level [manager], the store behind the
    session, and the subscriptions made at the broker.  No statement of the
    module unsubscribes, so the last only grows. *)
Record World := mkWorld {
  manager : CM.t;
  store : DB;
  subscriptions : list Subscription
}.

Definition set_manager (m : CM.t) (w : World) : World :=
  mkWorld m (store w) (subscriptions w).
Definition set_store (db : DB) (w : World) : World :=
  mkWorld (manager w) db (subscriptions w).
Definition subscribe (channel : string) (owner : Owner) (w : World) : World :=
  mkWorld (manager w) (store w) (subscriptions w ++ [mkSub channel owner]).

(** The subscriptions on the channel of a room. *)
Definition subscriptions_on (chat_id : string) (w : World) : list Subscription :=
  filter (λ s, sub_channel s = channel_of chat_id) (subscriptions w).

(** The start of [listen_to_redis]: a listener task that runs subscribes
    to the channel of its room. *)
Definition listen_to_redis_subscribe (h : nat) (w : World) : World :=
  match CM.tasks (manager w) !! h with
  | Some (mkTask room Running) => subscribe (channel_of room) (OwnerListener h) w
  | _ => w
  end.

(** The message being built in the loop, before the store has seen it. *)
Record Draft := mkDraft {
  draft_chat_id : string;
  draft_sender : string;
  draft_content : string
}.

(** The record published to the broker; the timestamp stands for its
    ISO-8601 text. *)
Record Payload := mkPayload {
  payload_id : nat;
  payload_sender : string;
  payload_content : string;
  payload_timestamp : Z
}.

#[global] Instance Draft_eq_dec : EqDecision Draft.
Proof. solve_decision. Defined.
#[global] Instance Payload_eq_dec : EqDecision Payload.
Proof. solve_decision. Defined.

(** What the endpoint does to the outside, in order. *)
Inductive Event :=
  | EvClose (websocket : WebSocket) (code : nat)
  | EvSubscribe (websocket : WebSocket) (channel : string)
  | EvRegister (chat_id : string) (websocket : WebSocket)
  | EvAdd (draft : Draft)
  | EvCommit (msg : Message)
  | EvCommitFailed (draft : Draft) (e : Exc)
  | EvPublish (channel : string) (payload : Payload)
  | EvDeregister (chat_id : string) (websocket : WebSocket).

#[global] Instance Event_eq_dec : EqDecision Event.
Proof. solve_decision. Defined.

(** [websocket.close(code=1000)]: without an argument the close code is
    the default of the framework, 1000. *)
Definition close (websocket : WebSocket) (code : option nat) : Event :=
  EvClose websocket (default 1000 code).

(** [verify_token]: [jwt_decode] is the signature and expiry check against
    the fixed public key; a [JWTError] becomes a 401. *)
Definition verify_token (jwt_decode : string → option Claims) (token : string)
  : Response Claims :=
  match jwt_decode token with
  | Some decoded_token => Ok decoded_token
  | None => HTTPException 401
  end.

(** Modelled from the spec: a committed [Message] row receives its
    identifier and its timestamp from the store at write time. *)
Definition commit_message (draft : Draft) (now : Z) (db : DB) : DB * Message :=
  let msg := mkMessage (msg_seq db) (draft_chat_id draft) (draft_sender draft)
                       (draft_content draft) now in
  (mkDB (users db) (chats db) (messages db ++ [msg]) (chat_seq db) (S (msg_seq db)),
   msg).

Definition payload_of (msg : Message) : Payload :=
  mkPayload (msg_id msg) (sender msg) (content msg) (timestamp msg).

(** How the handshake ends: the connection is registered and served for
    the verified identity, or it was closed. *)
Inductive Handshake :=
  | Active (user : Claims)
  | Rejected.

(** [chat_endpoint] up to and including [manager.connect]. *)
Definition handshake (jwt_decode : string → option Claims)
    (token : option string) (chat_id : string) (websocket : WebSocket) (w : World)
  : World * list Event * Handshake :=
  match token with
  | None | Some "" => (w, [close websocket (Some 1008)], Rejected)
  | Some token =>
      match verify_token jwt_decode token with
      | Ok user =>
          let w1 := subscribe (channel_of chat_id) (OwnerEndpoint websocket) w in
          let subscribed := EvSubscribe websocket (channel_of chat_id) in
          match select_user (sub user) (store w1) with
          | Some user_db =>
              if decide (chat_id ∈ Chat_id <$> user_chats user_db (store w1)) then
                (set_manager (CM.connect chat_id websocket (manager w1)) w1,
                 [subscribed; EvRegister chat_id websocket], Active user)
              else (w1, [subscribed; close websocket None], Rejected)
          | None => (w1, [subscribed; close websocket None], Rejected)
          end
      | _ => (w, [close websocket (Some 1008)], Rejected)
      end
  end.

(** One turn of [while True]: what the three awaits of the body do.
    [receive_text] raises; or it returns [data] and [commit] raises; or
    [commit] returns at time [now] and [publish] raises; or all three
    return. *)
Inductive Turn :=
  | RecvRaises (e : Exc)
  | CommitRaises (data : string) (e : Exc)
  | PublishRaises (data : string) (now : Z) (e : Exc)
  | Relayed (data : string) (now : Z).

(** The exception that ends the loop, if the turns contain one: the loop
    itself never ends. *)
Fixpoint exit_of (turns : list Turn) : option Exc :=
  match turns with
  | [] => None
  | Relayed _ _ :: rest => exit_of rest
  | RecvRaises e :: _ | CommitRaises _ e :: _ | PublishRaises _ _ e :: _ => Some e
  end.

(** The body of the [try]: the ingress loop.  It returns the store, the
    events and the exception that left the loop; [None] when the turns are
    used up and the loop awaits the next frame. *)
Fixpoint ingress (chat_id : string) (user : Claims) (turns : list Turn) (db : DB)
  : DB * list Event * option Exc :=
  match turns with
  | [] => (db, [], None)
  | RecvRaises e :: _ => (db, [], Some e)
  | CommitRaises data e :: _ =>
      let message := mkDraft chat_id (preferred_username user) data in
      (db, [EvAdd message; EvCommitFailed message e], Some e)
  | PublishRaises data now e :: _ =>
      let message := mkDraft chat_id (preferred_username user) data in
      let '(db1, msg) := commit_message message now db in
      (db1, [EvAdd message; EvCommit msg;
             EvPublish (channel_of chat_id) (payload_of msg)], Some e)
  | Relayed data now :: rest =>
      let message := mkDraft chat_id (preferred_username user) data in
      let '(db1, msg) := commit_message message now db in
      let '(db2, events, exit) := ingress chat_id user rest db1 in
      (db2, [EvAdd message; EvCommit msg;
             EvPublish (channel_of chat_id) (payload_of msg)] ++ events, exit)
  end.

Inductive Outcome :=
  | Receiving
  | Returned
  | Raised (e : Exc).

#[global] Instance Outcome_eq_dec : EqDecision Outcome.
Proof. solve_decision. Defined.

(** The [try] statement: the loop, and the one handler, for
    [WebSocketDisconnect]. *)
Definition serve (chat_id : string) (websocket : WebSocket) (user : Claims)
    (turns : list Turn) (w : World) : World * list Event * Outcome :=
  let '(db1, events, exit) := ingress chat_id user turns (store w) in
  let w1 := set_store db1 w in
  match exit with
  | None => (w1, events, Receiving)
  | Some WebSocketDisconnect =>
      let '(m1, raised) := CM.disconnect chat_id websocket (manager w1) in
      (set_manager m1 w1, events ++ [EvDeregister chat_id websocket],
       from_option Raised Returned raised)
  | Some e => (w1, events, Raised e)
  end.

(** [chat_endpoint] *)
Definition chat_endpoint (jwt_decode : string → option Claims)
    (token : option string) (chat_id : string) (websocket : WebSocket)
    (turns : list Turn) (w : World) : World * list Event * Outcome :=
  let '(w1, events1, h) := handshake jwt_decode token chat_id websocket w in
  match h with
  | Rejected => (w1, events1, Returned)
  | Active user =>
      let '(w2, events2, outcome) := serve chat_id websocket user turns w1 in
      (w2, events1 ++ events2, outcome)
  end.

(** The number of times the endpoint called [manager.disconnect]. *)
Definition is_deregister (ev : Event) : bool :=
  match ev with EvDeregister _ _ => true | _ => false end.

Definition deregistrations (events : list Event) : nat :=
  length (filter is_deregister events).

(** The events of the ingress loop, as opposed to those of the handshake
    and of the handler. *)
Definition is_ingress (ev : Event) : bool :=
  match ev with
  | EvAdd _ | EvCommit _ | EvCommitFailed _ _ | EvPublish _ _ => true
  | _ => false
  end.


(** ** Stated properties and sample inputs *)


Definition alice : User := mkUser "u-alice" "alice".
Definition bob : User := mkUser "u-bob" "bob".
Definition carol : User := mkUser "u-carol" "carol".

(** Alice and Bob share room r1, in which Alice has said hi; Carol is
    registered and in no room. *)
Definition sample_db : DB :=
  mkDB [alice; bob; carol]
       [mkChat "r1" "" [alice; bob]]
       [mkMessage 0 "r1" "alice" "hi" 100]
       1 1.

(** A decoder that accepts the tokens of Alice, Bob and Carol. *)
Definition sample_jwt_decode (token : string) : option Claims :=
  if decide (token = "token-of-alice") then Some (mkClaims "u-alice" "alice")
  else if decide (token = "token-of-bob") then Some (mkClaims "u-bob" "bob")
  else if decide (token = "token-of-carol") then Some (mkClaims "u-carol" "carol")
  else None.

(** A process that has just started, on the sample store. *)
Definition world0 : World := mkWorld CM.init sample_db [].


(** At most one subscription on the channel of a room. *)
Definition at_most_one_subscription (chat_id : string) (w : World) : Prop :=
  length (subscriptions_on chat_id w) ≤ 1.

(** ** The listener loop *)

(** A message read from [pubsub.listen()]: its [type] and its [data]. *)
Record PubSubMessage := mkPubSubMessage {
  pubsub_type : string;
  pubsub_data : string
}.

(** A message as the listener meets it: with the registry of that moment. *)
Record Arrival := mkArrival { registry : CM.t; arrived : PubSubMessage }.

Inductive ListenerOutcome :=
  | Listening
  | ListenerRaised (websocket : WebSocket).

(** The [async for] of [listen_to_redis]: messages of type [message] are
    broadcast to the room, the others are skipped; the loop has no handler,
    so a broadcast that raises ends the task.  The result is the list of
    texts sent, each with its connection, and how the loop stands.
    [send_text c text] answers whether the send of [text] to [c] returns. *)
Fixpoint listen_to_redis (set_iter : gset nat → list WebSocket)
    (send_text : WebSocket → string → bool) (chat_id : string)
    (inbox : list Arrival) : list (WebSocket * string) * ListenerOutcome :=
  match inbox with
  | [] => ([], Listening)
  | a :: rest =>
      let message := arrived a in
      if decide (pubsub_type message = "message") then
        let res := CM.broadcast set_iter (λ c, send_text c (pubsub_data message))
                                chat_id (registry a) in
        let sent := (λ c, (c, pubsub_data message)) <$> CM.delivered res in
        match CM.raised_at res with
        | Some c => (sent, ListenerRaised c)
        | None =>
            let '(log, outcome) := listen_to_redis set_iter send_text chat_id rest in
            (sent ++ log, outcome)
        end
      else listen_to_redis set_iter send_text chat_id rest
  end.


(** ** Replaying registry operations *)

(** Whether the operations leave [websocket] registered in [chat_id], read
    off the operations alone: the last one that names the pair decides. *)
Fixpoint registered_by (chat_id : string) (websocket : WebSocket)
    (ops : list RegistryOp) (before : bool) : bool :=
  match ops with
  | [] => before
  | OpConnect c w :: rest =>
      registered_by chat_id websocket rest
        (if decide (c = chat_id ∧ w = websocket) then true else before)
  | OpDisconnect c w :: rest =>
      registered_by chat_id websocket rest
        (if decide (c = chat_id ∧ w = websocket) then false else before)
  end.

(** ** Authorization at the handshake *)

(** The token is present, not empty, accepted by the decoder for [user],
    whose subject is a stored user participating in the room. *)
Definition authorized (jwt_decode : string → option Claims)
    (token : option string) (chat_id : string) (db : DB) (user : Claims) : Prop :=
  ∃ tok user_db,
    token = Some tok ∧ tok ≠ "" ∧ jwt_decode tok = Some user ∧
    select_user (sub user) db = Some user_db ∧
    chat_id ∈ Chat_id <$> user_chats user_db db.

(** The messages committed in a run, in order. *)
Definition commits (events : list Event) : list Message :=
  omap (λ ev, match ev with EvCommit msg => Some msg | _ => None end) events.

(** ** Listing the rooms of a user *)

(** The answer of the profile service to [client.get]: a status code and,
    in the body, the picture if the record has one; or the request or the
    decoding of the body raises. *)
Inductive HttpReply :=
  | Reply (status_code : nat) (picture : option string)
  | HttpRaises.

(** [fetch_picture]: the picture of a 200 answer, [None] on any other
    status and on any exception. *)
Definition fetch_picture (client_get : string → HttpReply) (participant : User)
  : option string :=
  match client_get (user_id participant) with
  | Reply status_code picture =>
      if decide (status_code = 200) then picture else None
  | HttpRaises => None
  end.

Record ParticipantData := mkParticipantData {
  pd_id : string;
  pd_username : string;
  pd_picture : option string
}.

Record ChatData := mkChatData {
  cd_id : string;
  cd_name : string;
  cd_participants : list ParticipantData
}.

(** [result.unique().scalar_one_or_none()]: no row, the one row, or
    [MultipleResultsFound], which is the outer [None]. *)
Definition unique_scalar_one_or_none {A} `{EqDecision A} (rows : list A)
  : option (option A) :=
  match remove_dups rows with
  | [] => Some None
  | [row] => Some (Some row)
  | _ => None
  end.

(** [list_chats(user, db)]: the body of the handler, with [user] the value
    its dependency returned.  The outer [None] is the exception of the
    query. *)
Definition list_chats (client_get : string → HttpReply) (user : Claims) (db : DB)
  : option (list ChatData) :=
  match unique_scalar_one_or_none
          (filter (λ u, user_id u = sub user) (users db)) with
  | None => None
  | Some None => Some []
  | Some (Some user_db) =>
      Some ((λ chat,
               mkChatData (Chat_id chat) (Chat_name chat)
                 ((λ p, mkParticipantData (user_id p) (username p)
                                          (fetch_picture client_get p))
                    <$> participants chat))
              <$> user_chats user_db db)
  end.

(** A profile service that knows a picture for Alice and fails for
    everybody else. *)
Definition sample_client_get (uid : string) : HttpReply :=
  if decide (uid = "u-alice") then Reply 200 (Some "alice.png") else HttpRaises.

(** A listed room without the pictures: its identifier, its name and the
    identifier and name of each participant. *)
Definition chat_outline (cd : ChatData) : string * string * list (string * string) :=
  (cd_id cd, cd_name cd, (λ p, (pd_id p, pd_username p)) <$> cd_participants cd).

(** * Properties *)

(** ** The registry invariant *)

Section RegistryInvariant.

Implicit Types (m : CM.t) (r : string) (w h : nat).

(** Both dictionaries have the same keys, no stored room is empty, each
    stored handle is the running listener of its room, and each running
    task is the one stored for its room. *)
Record registry_wf m : Prop := {
  wf_keys : ∀ r, is_Some (CM.redis_tasks m !! r) ↔ is_Some (CM.rooms m !! r);
  wf_nonempty : ∀ r conns, CM.rooms m !! r = Some conns → conns ≠ ∅;
  wf_handle : ∀ r h, CM.redis_tasks m !! r = Some h →
                CM.tasks m !! h = Some (mkTask r Running);
  wf_running : ∀ h tk, CM.tasks m !! h = Some tk → task_state tk = Running →
                CM.redis_tasks m !! task_room tk = Some h
}.

Lemma registry_wf_init : registry_wf CM.init.
Proof.
  split; simpl.
  - intros r. rewrite !lookup_empty. split; intros [? ?]; done.
  - intros r conns. by rewrite lookup_empty.
  - intros r h. by rewrite lookup_empty.
  - intros h tk. by rewrite lookup_nil.
Qed.

Lemma connect_wf r w m : registry_wf m → registry_wf (CM.connect r w m).
Proof.
  intros [Hk Hn Hh Hr]. unfold CM.connect.
  destruct (CM.redis_tasks m !! r) as [h0|] eqn:Ht; simpl.
  - split; simpl.
    + intros r'. destruct (decide (r = r')) as [<-|Hne].
      * rewrite lookup_insert_eq Ht. split; eauto.
      * rewrite lookup_insert_ne //.
    + intros r' conns. destruct (decide (r = r')) as [<-|Hne].
      * rewrite lookup_insert_eq. intros [= <-]. set_solver.
      * rewrite lookup_insert_ne //. apply Hn.
    + done.
    + done.
  - split; simpl.
    + intros r'. destruct (decide (r = r')) as [<-|Hne].
      * rewrite !lookup_insert_eq. split; eauto.
      * rewrite !lookup_insert_ne //.
    + intros r' conns. destruct (decide (r = r')) as [<-|Hne].
      * rewrite lookup_insert_eq. intros [= <-]. set_solver.
      * rewrite lookup_insert_ne //. apply Hn.
    + intros r' h. destruct (decide (r = r')) as [<-|Hne].
      * rewrite lookup_insert_eq. intros [= <-].
        rewrite lookup_app_r // Nat.sub_diag //.
      * rewrite lookup_insert_ne //. intros Hl.
        rewrite lookup_app_l; [by apply Hh|].
        eapply lookup_lt_Some, Hh, Hl.
    + intros h tk Hl Hrun.
      destruct (decide (h < length (CM.tasks m))) as [Hlt|Hge].
      * rewrite lookup_app_l // in Hl.
        pose proof (Hr _ _ Hl Hrun) as Hs.
        destruct (decide (r = task_room tk)) as [->|Hne]; [congruence|].
        rewrite lookup_insert_ne //.
      * rewrite lookup_app_r in Hl; [|lia].
        destruct (h - length (CM.tasks m)) as [|k] eqn:Hk'; simpl in Hl; [|done].
        injection Hl as <-. simpl. rewrite lookup_insert_eq. f_equal. lia.
Qed.

Lemma disconnect_wf r w m :
  registry_wf m →
  registry_wf (CM.disconnect r w m).1 ∧ (CM.disconnect r w m).2 = None.
Proof.
  intros Hwf. pose proof Hwf as [Hk Hn Hh Hr]. unfold CM.disconnect.
  destruct (CM.rooms m !! r) as [conns|] eqn:Hroom; [|done].
  case_decide as Hempty.
  - destruct (CM.redis_tasks m !! r) as [h0|] eqn:Ht.
    2:{ exfalso. assert (is_Some (CM.redis_tasks m !! r)) as [? ?]
          by (apply Hk; eauto). congruence. }
    split; [|done]. split; simpl.
    + intros r'. destruct (decide (r = r')) as [<-|Hne].
      * rewrite !lookup_delete_eq. split; intros [? ?]; done.
      * rewrite !lookup_delete_ne // lookup_insert_ne //.
    + intros r' conns'. destruct (decide (r = r')) as [<-|Hne].
      * by rewrite lookup_delete_eq.
      * rewrite lookup_delete_ne // lookup_insert_ne //. apply Hn.
    + intros r' h. destruct (decide (r = r')) as [<-|Hne].
      * by rewrite lookup_delete_eq.
      * rewrite lookup_delete_ne //. intros Hl.
        unfold cancel_task. rewrite list_lookup_alter_ne; [by apply Hh|].
        intros ->. pose proof (Hh _ _ Hl) as H1. pose proof (Hh _ _ Ht) as H2.
        congruence.
    + intros h tk Hl Hrun. unfold cancel_task in Hl.
      destruct (decide (h0 = h)) as [->|Hne].
      * rewrite list_lookup_alter_eq in Hl.
        destruct (CM.tasks m !! h); simplify_eq/=.
      * rewrite list_lookup_alter_ne // in Hl.
        pose proof (Hr _ _ Hl Hrun) as Hs.
        destruct (decide (r = task_room tk)) as [->|Hne']; [congruence|].
        rewrite lookup_delete_ne //.
  - split; [|done]. split; simpl.
    + intros r'. destruct (decide (r = r')) as [<-|Hne].
      * rewrite lookup_insert_eq. split; [eauto|]. intros _. apply Hk. eauto.
      * rewrite lookup_insert_ne //.
    + intros r' conns'. destruct (decide (r = r')) as [<-|Hne].
      * rewrite lookup_insert_eq. by intros [= <-].
      * rewrite lookup_insert_ne //. apply Hn.
    + done.
    + done.
Qed.

Lemma run_ops_wf ops m :
  registry_wf m → registry_wf (run_ops ops m).1 ∧ (run_ops ops m).2 = [].
Proof.
  revert m. induction ops as [|op ops IH]; intros m Hwf; [done|].
  simpl. destruct (apply_op op m) as [m1 e] eqn:Hop.
  assert (registry_wf m1 ∧ e = None) as [Hwf1 ->].
  { destruct op as [c w|c w]; simpl in Hop.
    - injection Hop as <- <-. split; [by apply connect_wf|done].
    - pose proof (disconnect_wf c w m Hwf) as [H1 H2].
      rewrite Hop in H1, H2. done. }
  destruct (IH m1 Hwf1) as [H1 H2].
  destruct (run_ops ops m1) as [m2 es]. simpl in *. by subst.
Qed.

(** The listener of a room is stored exactly when the room has a
    connection. *)
Lemma listener_iff_occupied m r :
  registry_wf m →
  is_Some (CM.redis_tasks m !! r) ↔ 0 < CM.connection_count r m.
Proof.
  intros [Hk Hn _ _]. unfold CM.connection_count, CM.members. rewrite Hk.
  destruct (CM.rooms m !! r) as [conns|] eqn:Hroom; cbn [from_option id].
  - split; [|eauto]. intros _.
    destruct (decide (size conns = 0)) as [Hz|]; [|lia].
    apply size_empty_inv in Hz. apply leibniz_equiv in Hz.
    by apply Hn in Hroom.
  - rewrite size_empty. split; [by intros [? ?]|lia].
Qed.

End RegistryInvariant.

(** ** Listener lifecycle under churn *)

Section ListenerLifecycle.

Implicit Types (m : CM.t) (r : string) (w h : nat).

Lemma first_connect_starts_listener m r w :
  registry_wf m → CM.connection_count r m = 0 →
  let h := length (CM.tasks m) in
  CM.tasks m !! h = None ∧
  CM.redis_tasks (CM.connect r w m) !! r = Some h ∧
  CM.state_of h (CM.connect r w m) = Some Running ∧
  CM.connection_count r (CM.connect r w m) = 1.
Proof.
  intros Hwf Hz h.
  assert (CM.redis_tasks m !! r = None) as Hnone.
  { apply eq_None_not_Some. rewrite listener_iff_occupied //. lia. }
  assert (CM.rooms m !! r = None) as Hroom.
  { apply eq_None_not_Some. rewrite -(wf_keys _ Hwf) Hnone. by intros [? ?]. }
  split; [by apply lookup_ge_None|].
  unfold CM.connect, CM.state_of, CM.connection_count, CM.members.
  rewrite Hnone Hroom /=. rewrite !lookup_insert_eq.
  split; [done|]. split.
  - rewrite lookup_app_r // Nat.sub_diag //.
  - cbn [from_option id]. rewrite left_id_L. apply size_singleton.
Qed.

Lemma last_disconnect_cancels_listener m r w :
  registry_wf m →
  w ∈ CM.members r m → CM.connection_count r m = 1 →
  ∃ h, CM.redis_tasks m !! r = Some h ∧
       CM.state_of h m = Some Running ∧
       (CM.disconnect r w m).2 = None ∧
       CM.connection_count r (CM.disconnect r w m).1 = 0 ∧
       CM.redis_tasks (CM.disconnect r w m).1 !! r = None ∧
       CM.state_of h (CM.disconnect r w m).1 = Some Cancelled ∧
       length (CM.tasks (CM.disconnect r w m).1) = length (CM.tasks m).
Proof.
  intros Hwf Hin Hone.
  destruct (proj2 (listener_iff_occupied m r Hwf)) as [h Hh]; [lia|].
  exists h. pose proof (wf_handle _ Hwf _ _ Hh) as Htask.
  unfold CM.connection_count, CM.members in *.
  destruct (CM.rooms m !! r) as [conns|] eqn:Hroom; cbn [from_option id] in *;
    [|set_solver].
  assert (conns ∖ {[w]} = ∅) as Hempty.
  { apply size_1_elem_of in Hone as [x Hx]. set_solver. }
  unfold CM.disconnect, CM.state_of. rewrite Hroom Hh Htask.
  rewrite decide_True //. cbn [fst snd CM.rooms CM.redis_tasks CM.tasks].
  rewrite !lookup_delete_eq. cbn [from_option id fmap option_fmap option_map].
  unfold cancel_task. rewrite list_lookup_alter_eq Htask length_alter.
  split_and!; done.
Qed.

End ListenerLifecycle.

(** C7.  After every sequence of connect and disconnect operations on a
    fresh manager, nothing was raised, and a room has a stored, running
    listener task if and only if its connection count is positive; a
    running listener task is always the one stored for its room.  In every
    such state, a connect to an empty room creates a task that did not
    exist before and stores it as the running listener; the disconnect of
    the only connection of a room cancels the stored listener and removes
    it; and a connect after that stores a running listener with a handle
    different from the cancelled one. *)
Theorem listener_iff_connections_after_churn (ops : list RegistryOp) :
  let m := (run_ops ops CM.init).1 in
  (run_ops ops CM.init).2 = [] ∧
  (∀ r, (∃ h, CM.redis_tasks m !! r = Some h ∧
              CM.tasks m !! h = Some (mkTask r Running)) ↔
        0 < CM.connection_count r m) ∧
  (∀ r h, CM.tasks m !! h = Some (mkTask r Running) →
          CM.redis_tasks m !! r = Some h) ∧
  (∀ r w, CM.connection_count r m = 0 →
     let h := length (CM.tasks m) in
     CM.tasks m !! h = None ∧
     CM.redis_tasks (CM.connect r w m) !! r = Some h ∧
     CM.state_of h (CM.connect r w m) = Some Running ∧
     CM.connection_count r (CM.connect r w m) = 1) ∧
  (∀ r w, w ∈ CM.members r m → CM.connection_count r m = 1 →
     let m1 := (CM.disconnect r w m).1 in
     ∃ h, CM.redis_tasks m !! r = Some h ∧
          CM.connection_count r m1 = 0 ∧
          CM.redis_tasks m1 !! r = None ∧
          CM.state_of h m1 = Some Cancelled ∧
          ∀ w', ∃ h', CM.redis_tasks (CM.connect r w' m1) !! r = Some h' ∧
                      h' ≠ h ∧
                      CM.state_of h' (CM.connect r w' m1) = Some Running).
Proof.
  intros m. destruct (run_ops_wf ops CM.init registry_wf_init) as [Hwf Hnil].
  fold m in Hwf. split; [done|]. split; [|split; [|split]].
  - intros r. rewrite -listener_iff_occupied //. split.
    + intros (h & Hh & _). eauto.
    + intros [h Hh]. exists h. split; [done|]. by apply (wf_handle _ Hwf).
  - intros r h Hh. by apply (wf_running _ Hwf _ _ Hh).
  - intros r w Hz. by apply first_connect_starts_listener.
  - intros r w Hin Hone m1.
    destruct (last_disconnect_cancels_listener m r w Hwf Hin Hone)
      as (h & Hh & Hrun & Hexc & Hz & Hgone & Hcanc & Hlen).
    fold m1 in Hz, Hgone, Hcanc, Hlen.
    exists h. do 4 (split; [done|]). intros w'.
    assert (registry_wf m1) as Hwf1 by (apply disconnect_wf; done).
    destruct (first_connect_starts_listener m1 r w' Hwf1 Hz) as (Hfresh & Hst & Hr & _).
    exists (length (CM.tasks m1)). split; [done|]. split; [|done].
    intros Heq. rewrite Heq in Hfresh.
    unfold CM.state_of in Hcanc. by rewrite Hfresh in Hcanc.
  Qed.

Lemma send_all_spec send_text conns :
  match (CM.send_all send_text conns).2 with
  | None => (CM.send_all send_text conns).1 = conns ∧
            Forall (λ c, send_text c = true) conns
  | Some c => ∃ rest, conns = (CM.send_all send_text conns).1 ++ c :: rest ∧
                      send_text c = false ∧
                      Forall (λ c, send_text c = true) (CM.send_all send_text conns).1
  end.
Proof.
  induction conns as [|c conns IH]; simpl; [done|].
  destruct (send_text c) eqn:Hc.
  - destruct (CM.send_all send_text conns) as [sent [f|]]; simpl in *.
    + destruct IH as (rest & -> & Hf & Hall). exists rest.
      split; [done|]. split; [done|]. by constructor.
    + destruct IH as [-> Hall]. split; [done|]. by constructor.
  - simpl. exists conns. done.
Qed.

Section Broadcast.

(** The iteration order of a Python set: some enumeration of its
    elements. *)
Variable set_iter : gset nat → list WebSocket.
Hypothesis set_iter_perm : ∀ s, set_iter s ≡ₚ elements s.


End Broadcast.



(** ** Message history *)

Section History.

Implicit Types (room : string) (limit : Z) (db : DB).





End History.



(** C9.  The history route takes nothing from the caller: two requests for
    the same room and limit receive the same response whatever credential
    each carries, and the response depends on the message table only, not
    on who participates in which room. *)
Theorem get_chat_history_same_for_every_caller :
  (∀ auth1 auth2 room limit db,
     get_chat_history_route (mkHistoryRequest auth1 room limit) db =
     get_chat_history_route (mkHistoryRequest auth2 room limit) db) ∧
  (∀ req db1 db2, messages db1 = messages db2 →
     get_chat_history_route req db1 = get_chat_history_route req db2).
Proof.
  split; [done|].
  intros req db1 db2 Hmsg.
  unfold get_chat_history_route, get_chat_history, select_history, room_messages.
  by rewrite Hmsg.
Qed.

(** A caller with no credential reads room r1, as a participant would. *)
Example history_without_credential :
  get_chat_history_route (mkHistoryRequest None "r1" None) sample_db =
    Ok [mkItem 0 "alice" "hi" 100] ∧
  get_chat_history_route (mkHistoryRequest (Some "token-of-alice") "r1" None) sample_db =
    Ok [mkItem 0 "alice" "hi" 100].
Proof. split; vm_compute; reflexivity. Qed.

(** ** Room creation *)



(** Alice opens a room with Bob twice; the store already holds one. *)
Example create_chat_twice :
  let db1 := (create_chat (mkChatCreate "u-bob") (mkClaims "u-alice" "alice") sample_db).1 in
  let db2 := (create_chat (mkChatCreate "u-bob") (mkClaims "u-alice" "alice") db1).1 in
  chats db2 = [mkChat "r1" "" [alice; bob]; mkChat "1" "" [alice; bob];
               mkChat "2" "" [alice; bob]].
Proof. vm_compute. reflexivity. Qed.

(** ** The ingress loop: persist, then publish *)

Section Ingress.

Implicit Types (chat_id : string) (user : Claims) (turns : list Turn) (db : DB).

Lemma commit_message_stored (draft : Draft) (now : Z) db :
  (commit_message draft now db).2 ∈ messages (commit_message draft now db).1 ∧
  ∀ m, m ∈ messages db → m ∈ messages (commit_message draft now db).1.
Proof. simpl. set_solver. Qed.


Lemma ingress_exit chat_id user turns db :
  (ingress chat_id user turns db).2 = exit_of turns.
Proof.
  revert db. induction turns as [|t turns IH]; intros db; [done|].
  destruct t as [e|data e|data now e|data now]; simpl; try done.
  set (db1 := mkDB _ _ _ _ _).
  specialize (IH db1). by destruct (ingress chat_id user turns db1) as [[db2 evs] ex].
Qed.

Lemma ingress_only_ingress_events chat_id user turns db :
  Forall (λ ev, is_ingress ev = true) (ingress chat_id user turns db).1.2.
Proof.
  revert db. induction turns as [|t turns IH]; intros db; [by constructor|].
  destruct t as [e|data e|data now e|data now]; simpl;
    try (repeat constructor; done).
  set (db1 := mkDB _ _ _ _ _).
  specialize (IH db1). destruct (ingress chat_id user turns db1) as [[db2 evs] ex].
  simpl in *. by repeat constructor.
Qed.





End Ingress.

(** ** The endpoint *)

Section Endpoint.

Variable jwt_decode : string → option Claims.

Implicit Types (token : option string) (chat_id : string) (websocket : nat).
Implicit Types (turns : list Turn) (w : World) (user : Claims).

Lemma handshake_events token chat_id websocket w :
  Forall (λ ev, is_ingress ev = false)
         (handshake jwt_decode token chat_id websocket w).1.2 ∧
  Forall (λ ev, is_deregister ev = false)
         (handshake jwt_decode token chat_id websocket w).1.2 ∧
  store (handshake jwt_decode token chat_id websocket w).1.1 = store w.
Proof.
  unfold handshake. repeat case_match; simpl; split_and!;
    (done || by repeat constructor).
Qed.

(** A rejected handshake never touches the registry. *)
Lemma rejected_never_registered token chat_id websocket w w1 hs :
  handshake jwt_decode token chat_id websocket w = (w1, hs, Rejected) →
  manager w1 = manager w ∧ ∀ c x, EvRegister c x ∉ hs.
Proof.
  unfold handshake. intros H.
  repeat case_match; simplify_eq/=; (split; [done|]);
    intros c x Hin; unfold close in Hin; set_solver.
Qed.

(** The close codes of the three rejections. *)
Lemma rejection_close_codes token chat_id websocket w w1 hs :
  handshake jwt_decode token chat_id websocket w = (w1, hs, Rejected) →
  (hs = [EvClose websocket 1008] ∧ subscriptions w1 = subscriptions w) ∨
  (hs = [EvSubscribe websocket (channel_of chat_id); EvClose websocket 1000] ∧
   ∃ tok user, token = Some tok ∧ jwt_decode tok = Some user).
Proof.
  unfold handshake, verify_token. intros H.
  repeat case_match; simplify_eq/=; (by left) || (right; eauto).
Qed.

(** A connection that becomes active is registered. *)
Lemma active_is_registered token chat_id websocket w w1 hs user :
  handshake jwt_decode token chat_id websocket w = (w1, hs, Active user) →
  websocket ∈ CM.members chat_id (manager w1) ∧
  hs = [EvSubscribe websocket (channel_of chat_id); EvRegister chat_id websocket].
Proof.
  unfold handshake. intros H. repeat case_match; simplify_eq/=.
  split; [|done]. unfold CM.members, CM.connect.
  case_match; simpl; rewrite lookup_insert_eq /=; set_solver.
Qed.

Lemma serve_spec chat_id websocket user turns w :
  let ing := ingress chat_id user turns (store w) in
  let w1 := set_store ing.1.1 w in
  serve chat_id websocket user turns w =
    match exit_of turns with
    | None => (w1, ing.1.2, Receiving)
    | Some WebSocketDisconnect =>
        (set_manager (CM.disconnect chat_id websocket (manager w)).1 w1,
         ing.1.2 ++ [EvDeregister chat_id websocket],
         from_option Raised Returned (CM.disconnect chat_id websocket (manager w)).2)
    | Some e => (w1, ing.1.2, Raised e)
    end.
Proof.
  intros ing w1. unfold serve. subst w1 ing.
  rewrite -(ingress_exit chat_id user turns (store w)).
  destruct (ingress chat_id user turns (store w)) as [[db1 evs] [e|]]; [|done].
  destruct e; simpl; try done.
  by destruct (CM.disconnect chat_id websocket (manager w)).
Qed.

Lemma deregistrations_app (l1 l2 : list Event) :
  deregistrations (l1 ++ l2) = deregistrations l1 + deregistrations l2.
Proof. unfold deregistrations. by rewrite filter_app length_app. Qed.

Lemma deregistrations_none (l : list Event) :
  Forall (λ ev, is_deregister ev = false) l → deregistrations l = 0.
Proof.
  unfold deregistrations. induction 1 as [|ev l Hev _ IH]; [done|].
  rewrite filter_cons_False; [done|]. rewrite Hev. by intros [].
Qed.

Lemma ingress_no_deregistration chat_id user turns (db : DB) :
  deregistrations (ingress chat_id user turns db).1.2 = 0.
Proof.
  apply deregistrations_none.
  eapply Forall_impl; [apply ingress_only_ingress_events|].
  intros [] ?; simplify_eq/=; done.
Qed.




(** Any other exception leaves the loop without a call of
    [manager.disconnect], and the registry as it was. *)
Lemma other_exits_skip_disconnect token chat_id websocket turns w w1 hs user e :
  handshake jwt_decode token chat_id websocket w = (w1, hs, Active user) →
  exit_of turns = Some e → e ≠ WebSocketDisconnect →
  let res := chat_endpoint jwt_decode token chat_id websocket turns w in
  res.2 = Raised e ∧ deregistrations res.1.2 = 0 ∧ manager res.1.1 = manager w1.
Proof.
  intros Hhs Hexit Hne res. subst res.
  destruct (active_is_registered _ _ _ _ _ _ _ Hhs) as [_ Hevs].
  unfold chat_endpoint. rewrite Hhs serve_spec Hexit.
  pose proof (ingress_no_deregistration chat_id user turns (store w1)) as Hz.
  set (ing := ingress chat_id user turns (store w1)) in *.
  assert (deregistrations hs = 0) as Hz' by (by subst hs).
  destruct e; try done; simpl; rewrite deregistrations_app Hz Hz'; done.
Qed.

End Endpoint.

(** ** The endpoint on the sample process *)



(** C4 (the code at the failing input).  Carol holds a valid token and is
    not a participant of r1: her connection is closed with code 1000,
    while a missing and an invalid token are closed with 1008. *)
Theorem non_participant_closed_with_1000 :
  (chat_endpoint sample_jwt_decode (Some "token-of-carol") "r1" 7 [] world0).1.2 =
    [EvSubscribe 7 "chat_channel:r1"; EvClose 7 1000] ∧
  (chat_endpoint sample_jwt_decode None "r1" 7 [] world0).1.2 = [EvClose 7 1008] ∧
  (chat_endpoint sample_jwt_decode (Some "forged") "r1" 7 [] world0).1.2 =
    [EvClose 7 1008].
Proof. split_and!; vm_compute; reflexivity. Qed.

(** C5 (the code at the failing input).  Carol's rejected connection is
    never registered, but the endpoint has subscribed to the channel of r1
    for it before the membership check. *)
Theorem non_participant_subscribed_before_check :
  let res := chat_endpoint sample_jwt_decode (Some "token-of-carol") "r1" 7 []
               world0 in
  res.2 = Returned ∧
  manager res.1.1 = manager world0 ∧
  EvSubscribe 7 (channel_of "r1") ∈ res.1.2 ∧
  subscriptions_on "r1" res.1.1 = [mkSub (channel_of "r1") (OwnerEndpoint 7)].
Proof.
  split_and!; try (vm_compute; reflexivity).
  apply list_elem_of_here.
Qed.

(** C6 (the code at the failing input).  Alice alone is connected to r1
    and her endpoint awaits a frame; the one listener task of the room is
    running and has subscribed.  The channel of r1 has two subscriptions:
    the listener's and the one the endpoint made for the connection.  With
    Bob connected as well there are three. *)
Theorem two_subscriptions_for_one_connection :
  let res := chat_endpoint sample_jwt_decode (Some "token-of-alice") "r1" 1 []
               world0 in
  let w := listen_to_redis_subscribe 0 res.1.1 in
  let res' := chat_endpoint sample_jwt_decode (Some "token-of-bob") "r1" 2 [] w in
  res.2 = Receiving ∧
  CM.redis_tasks (manager w) !! "r1" = Some 0 ∧
  CM.tasks (manager w) = [mkTask "r1" Running] ∧
  subscriptions_on "r1" w = [mkSub (channel_of "r1") (OwnerEndpoint 1);
                             mkSub (channel_of "r1") (OwnerListener 0)] ∧
  ¬ at_most_one_subscription "r1" w ∧
  res'.2 = Receiving ∧
  CM.tasks (manager res'.1.1) = [mkTask "r1" Running] ∧
  length (subscriptions_on "r1" res'.1.1) = 3.
Proof.
  split_and!; try (vm_compute; reflexivity).
  unfold at_most_one_subscription.
  assert (length (subscriptions_on "r1"
            (listen_to_redis_subscribe 0
               (chat_endpoint sample_jwt_decode (Some "token-of-alice") "r1" 1 []
                  world0).1.1)) = 2) as -> by (vm_compute; reflexivity).
  lia.
Qed.

(** ** The registry as a family of sets *)

Section RegistrySets.

Implicit Types (m : CM.t) (c r : string) (w h : nat).

(** X1.  Whatever the state of the manager, connect adds the connection to
    the set of its room and disconnect removes it from that set, and both
    leave the sets of all other rooms as they were; an emptied room, whose
    entry disconnect deletes, reads as the empty set. *)
Theorem registry_set_semantics m c w r :
  CM.members r (CM.connect c w m) =
    (if decide (c = r) then CM.members r m ∪ {[w]} else CM.members r m) ∧
  CM.members r (CM.disconnect c w m).1 =
    (if decide (c = r) then CM.members r m ∖ {[w]} else CM.members r m).
Proof.
  split.
  - unfold CM.members, CM.connect.
    destruct (CM.redis_tasks m !! c); simpl; case_decide; subst;
      rewrite ?lookup_insert_eq ?lookup_insert_ne //.
  - unfold CM.members, CM.disconnect.
    destruct (CM.rooms m !! c) as [conns|] eqn:Hroom; simpl.
    2:{ case_decide; subst; [|done]. rewrite Hroom /=. set_solver. }
    case_decide as Hempty.
    + destruct (CM.redis_tasks m !! c); simpl; case_decide; subst;
        rewrite ?lookup_delete_eq ?lookup_delete_ne ?lookup_insert_ne //;
        rewrite Hroom /= Hempty //.
    + simpl. case_decide; subst;
        rewrite ?lookup_insert_eq ?lookup_insert_ne // Hroom //.
Qed.

Lemma run_ops_cons op ops m :
  (run_ops (op :: ops) m).1 = (run_ops ops (apply_op op m).1).1.
Proof.
  simpl. destruct (apply_op op m) as [m1 e]. simpl.
  by destruct (run_ops ops m1).
Qed.

Lemma registered_after_ops ops m c w :
  w ∈ CM.members c (run_ops ops m).1 ↔
  registered_by c w ops (bool_decide (w ∈ CM.members c m)) = true.
Proof.
  revert m. induction ops as [|op ops IH]; intros m.
  { simpl. by rewrite bool_decide_eq_true. }
  rewrite run_ops_cons IH. destruct op as [c' w'|c' w']; simpl.
  - rewrite (proj1 (registry_set_semantics m c' w' c)).
    destruct (decide (c' = c ∧ w' = w)) as [[-> ->]|Hne].
    + rewrite decide_True // bool_decide_eq_true_2 //. set_solver.
    + f_equiv. f_equal. apply bool_decide_ext.
      case_decide; [|done]. subst. set_solver.
  - rewrite (proj2 (registry_set_semantics m c' w' c)).
    destruct (decide (c' = c ∧ w' = w)) as [[-> ->]|Hne].
    + rewrite decide_True // bool_decide_eq_false_2 //. set_solver.
    + f_equiv. f_equal. apply bool_decide_ext.
      case_decide; [|done]. subst. set_solver.
Qed.

(** X2.  After any sequence of connect and disconnect operations on a
    fresh manager, a connection is registered in a room exactly when the
    last operation naming that room and connection is a connect. *)
Theorem registered_iff_last_op_connects ops c w :
  w ∈ CM.members c (run_ops ops CM.init).1 ↔ registered_by c w ops false = true.
Proof.
  rewrite registered_after_ops. by rewrite bool_decide_eq_false_2.
Qed.

(** X3.  A second disconnect of the same connection changes nothing and
    raises nothing, whatever the first one did. *)
Theorem disconnect_idempotent m c w :
  CM.disconnect c w (CM.disconnect c w m).1 = ((CM.disconnect c w m).1, None).
Proof.
  unfold CM.disconnect at 2 3.
  destruct (CM.rooms m !! c) as [conns|] eqn:Hroom; simpl.
  2:{ unfold CM.disconnect. by rewrite Hroom. }
  case_decide as Hempty.
  - destruct (CM.redis_tasks m !! c); simpl;
      unfold CM.disconnect; simpl; by rewrite lookup_delete_eq.
  - simpl. unfold CM.disconnect. simpl. rewrite lookup_insert_eq.
    assert (conns ∖ {[w]} ∖ {[w]} = conns ∖ {[w]}) as -> by set_solver.
    rewrite decide_False // insert_insert_eq //.
Qed.

(** X4.  On a well-formed registry, connecting a connection that was not
    registered and disconnecting it again restores both dictionaries and
    raises nothing; a listener task started for it is left cancelled. *)
Theorem connect_disconnect_restores m c w :
  registry_wf m → w ∉ CM.members c m →
  let m' := (CM.disconnect c w (CM.connect c w m)).1 in
  CM.rooms m' = CM.rooms m ∧ CM.redis_tasks m' = CM.redis_tasks m ∧
  (CM.disconnect c w (CM.connect c w m)).2 = None ∧
  (CM.connection_count c m = 0 →
   CM.state_of (length (CM.tasks m)) m' = Some Cancelled).
Proof.
  intros Hwf Hnot m'. subst m'. unfold CM.members in Hnot.
  unfold CM.connect, CM.disconnect, CM.connection_count, CM.members, CM.state_of.
  destruct (CM.redis_tasks m !! c) as [h|] eqn:Ht.
  - assert (is_Some (CM.rooms m !! c)) as [conns Hroom]
      by (apply (wf_keys _ Hwf); eauto).
    rewrite Hroom /= in Hnot |- *. rewrite lookup_insert_eq.
    assert ((conns ∪ {[w]}) ∖ {[w]} = conns) as -> by set_solver.
    pose proof (wf_nonempty _ Hwf _ _ Hroom) as Hne.
    rewrite decide_False //=. rewrite insert_insert_eq insert_id //.
    split_and!; try done. intros Hz. apply size_empty_inv in Hz.
    apply leibniz_equiv in Hz. done.
  - assert (CM.rooms m !! c = None) as Hroom.
    { apply eq_None_not_Some. rewrite -(wf_keys _ Hwf) Ht. by intros [? ?]. }
    rewrite Hroom /=. rewrite !lookup_insert_eq.
    assert ((∅ ∪ {[w]}) ∖ {[w]} = (∅ : gset nat)) as -> by set_solver.
    case_decide; [simpl|done].
    rewrite insert_insert_eq !delete_insert_eq !delete_id //.
    split_and!; try done. intros _.
    unfold cancel_task. rewrite list_lookup_alter_eq.
    rewrite lookup_app_r // Nat.sub_diag //.
Qed.

(** X5.  On a well-formed registry, connects and disconnects in one room
    leave the listener of every other room alone: the same handle is
    stored and the task behind it is in the same state. *)
Theorem other_rooms_listener_untouched m c w r h :
  registry_wf m → c ≠ r → CM.redis_tasks m !! r = Some h →
  (CM.redis_tasks (CM.connect c w m) !! r = Some h ∧
   CM.state_of h (CM.connect c w m) = CM.state_of h m) ∧
  (CM.redis_tasks (CM.disconnect c w m).1 !! r = Some h ∧
   CM.state_of h (CM.disconnect c w m).1 = CM.state_of h m).
Proof.
  intros Hwf Hne Hh. pose proof (wf_handle _ Hwf _ _ Hh) as Htask. split.
  - unfold CM.connect, CM.state_of.
    destruct (CM.redis_tasks m !! c) as [h0|] eqn:Ht; simpl; [done|].
    rewrite lookup_insert_ne //. split; [done|].
    rewrite lookup_app_l //. by eapply lookup_lt_Some.
  - unfold CM.disconnect, CM.state_of.
    destruct (CM.rooms m !! c) as [conns|] eqn:Hroom; [|done].
    case_decide; [|done].
    destruct (CM.redis_tasks m !! c) as [h0|] eqn:Ht; simpl; [|done].
    rewrite lookup_delete_ne //. split; [done|].
    unfold cancel_task. rewrite list_lookup_alter_ne //.
    intros ->. pose proof (wf_handle _ Hwf _ _ Ht) as Htask'. congruence.
Qed.

End RegistrySets.

(** The round trip on the sample room: a third connection comes and
    goes. *)
Lemma connect_disconnect_restores_witness :
  let m' := (CM.disconnect "r1" 3 (CM.connect "r1" 3 two_in_room)).1 in
  CM.rooms m' = CM.rooms two_in_room ∧
  CM.redis_tasks m' = CM.redis_tasks two_in_room.
Proof.
  assert (registry_wf two_in_room) as Hwf.
  { apply (run_ops_wf _ CM.init registry_wf_init). }
  assert (3 ∉ CM.members "r1" two_in_room) as Hnot.
  { rewrite (registered_after_ops [OpConnect "r1" 1; OpConnect "r1" 2] CM.init).
    vm_compute. discriminate. }
  pose proof (connect_disconnect_restores two_in_room "r1" 3 Hwf Hnot) as H.
  split; apply H.
Defined.

(** The listener of r2 while r1 churns. *)
Lemma other_rooms_listener_untouched_witness :
  let m := (run_ops [OpConnect "r1" 1; OpConnect "r2" 2] CM.init).1 in
  CM.redis_tasks (CM.disconnect "r1" 1 m).1 !! "r2" = Some 1 ∧
  CM.state_of 1 (CM.disconnect "r1" 1 m).1 = CM.state_of 1 m.
Proof.
  intros m.
  refine (proj2 (other_rooms_listener_untouched m "r1" 1 "r2" 1 _ _ _)).
  - apply (run_ops_wf _ CM.init registry_wf_init).
  - discriminate.
  - vm_compute. reflexivity.
Defined.

(** ** Fan-out by the listener *)

Section FanOut.

Variable set_iter : gset nat → list WebSocket.
Hypothesis set_iter_perm : ∀ s, set_iter s ≡ₚ elements s.

Implicit Types (m : CM.t) (chat_id : string) (c : nat).

Lemma set_iter_NoDup (s : gset nat) : NoDup (set_iter s).
Proof. rewrite set_iter_perm. apply NoDup_elements. Qed.

Lemma elem_of_set_iter (s : gset nat) c : c ∈ set_iter s ↔ c ∈ s.
Proof. by rewrite set_iter_perm elem_of_elements. Qed.

(** X6.  A broadcast sends to connections of the named room only, to each
    at most once and never past a connection whose send raised; for a
    room the registry does not hold it sends nothing and raises nothing. *)
Theorem broadcast_only_to_members_once (send_text : WebSocket → bool) chat_id m :
  let res := CM.broadcast set_iter send_text chat_id m in
  NoDup (CM.delivered res) ∧
  (∀ c, c ∈ CM.delivered res → c ∈ CM.members chat_id m ∧ send_text c = true) ∧
  (CM.rooms m !! chat_id = None → CM.delivered res = [] ∧ CM.raised_at res = None).
Proof.
  unfold CM.broadcast, CM.members.
  destruct (CM.rooms m !! chat_id) as [conns|] eqn:Hroom; cbn [from_option id].
  2:{ simpl. split_and!; [constructor| |done]. intros c Hc. by apply elem_of_nil in Hc. }
  pose proof (send_all_spec send_text (set_iter conns)) as Hspec.
  pose proof (set_iter_NoDup conns) as Hnd.
  destruct (CM.send_all send_text (set_iter conns)) as [sent [f|]] eqn:Hsend;
    simpl in *.
  - destruct Hspec as (rest & Hiter & Hf & Hall).
    rewrite Hiter in Hnd. apply NoDup_app in Hnd as (Hnd & _ & _).
    split_and!; [done| |done]. intros c Hc. split.
    + apply elem_of_set_iter. rewrite Hiter. set_solver.
    + by eapply (proj1 (Forall_forall _ _) Hall).
  - destruct Hspec as [-> Hall]. split_and!; [done| |done]. intros c Hc. split.
    + by apply elem_of_set_iter.
    + by eapply (proj1 (Forall_forall _ _) Hall).
Qed.





(** X8.  Once a send has raised the listener is gone: whatever arrives
    afterwards is sent to nobody. *)
Theorem listener_stops_after_failed_send
    (send_text : WebSocket → string → bool) chat_id (inbox later : list Arrival) c :
  (listen_to_redis set_iter send_text chat_id inbox).2 = ListenerRaised c →
  listen_to_redis set_iter send_text chat_id (inbox ++ later) =
  listen_to_redis set_iter send_text chat_id inbox.
Proof.
  induction inbox as [|a inbox IH]; [done|]. simpl.
  case_decide; [|done].
  destruct (CM.raised_at _); [done|].
  destruct (listen_to_redis set_iter send_text chat_id inbox) as [log out].
  simpl. intros Hout. by rewrite (IH Hout).
Qed.

End FanOut.

(** A broadcast to the sample room in which connection 1 fails. *)
Lemma broadcast_only_to_members_once_witness :
  let res := CM.broadcast elements send_fails_on_1 "r1" two_in_room in
  NoDup (CM.delivered res) ∧
  (∀ c, c ∈ CM.delivered res →
        c ∈ CM.members "r1" two_in_room ∧ send_fails_on_1 c = true).
Proof.
  intros res.
  pose proof (broadcast_only_to_members_once elements (λ s, reflexivity _)
                send_fails_on_1 "r1" two_in_room) as (H1 & H2 & _).
  by split.
Defined.


(** Connection 1 fails on the first message; the second reaches nobody. *)
Lemma listener_stops_after_failed_send_witness :
  let send := λ c (_ : string), send_fails_on_1 c in
  let first := [mkArrival two_in_room (mkPubSubMessage "message" "a")] in
  let later := [mkArrival two_in_room (mkPubSubMessage "message" "b")] in
  listen_to_redis elements send "r1" (first ++ later) =
  listen_to_redis elements send "r1" first.
Proof.
  intros send first later.
  apply (listener_stops_after_failed_send elements send "r1" first later 1).
  vm_compute. reflexivity.
Defined.

(** ** Who gets in, and what a run may change *)

Section Admission.

Variable jwt_decode : string → option Claims.

Implicit Types (token : option string) (chat_id : string) (websocket : nat).
Implicit Types (turns : list Turn) (w : World) (user : Claims).

Lemma handshake_active_inv token chat_id websocket w user :
  (handshake jwt_decode token chat_id websocket w).2 = Active user →
  authorized jwt_decode token chat_id (store w) user.
Proof.
  unfold handshake, verify_token, authorized. intros H.
  destruct token as [tok|]; [|done].
  destruct tok as [|a tok]; [done|].
  destruct (jwt_decode (String a tok)) as [user'|] eqn:Hjwt; [|done].
  simpl in H.
  destruct (select_user (sub user') (store w)) as [user_db|] eqn:Hsel; [|done].
  case_decide; simplify_eq/=. exists (String a tok), user_db. done.
Qed.

Lemma handshake_authorized token chat_id websocket w user :
  authorized jwt_decode token chat_id (store w) user →
  handshake jwt_decode token chat_id websocket w =
    (set_manager (CM.connect chat_id websocket (manager w))
                 (subscribe (channel_of chat_id) (OwnerEndpoint websocket) w),
     [EvSubscribe websocket (channel_of chat_id); EvRegister chat_id websocket],
     Active user).
Proof.
  intros (tok & user_db & -> & Hne & Hjwt & Hsel & Hin).
  unfold handshake, verify_token.
  destruct tok as [|a tok]; [done|].
  rewrite Hjwt /= Hsel. by rewrite decide_True.
Qed.

(** X9.  The handshake registers a connection for an identity exactly
    when the token is present, not empty and accepted by the decoder for
    that identity, and its subject is a stored user who participates in
    the room. *)
Theorem handshake_active_iff_authorized token chat_id websocket w user :
  (handshake jwt_decode token chat_id websocket w).2 = Active user ↔
  authorized jwt_decode token chat_id (store w) user.
Proof.
  split; [apply handshake_active_inv|].
  intros H. by rewrite (handshake_authorized _ _ websocket _ _ H).
Qed.

(** The events of a run, around those of the loop. *)
Lemma chat_endpoint_run token chat_id websocket turns w :
  let res := chat_endpoint jwt_decode token chat_id websocket turns w in
  match (handshake jwt_decode token chat_id websocket w).2 with
  | Rejected =>
      res = ((handshake jwt_decode token chat_id websocket w).1.1,
             (handshake jwt_decode token chat_id websocket w).1.2, Returned)
  | Active user =>
      let ing := ingress chat_id user turns (store w) in
      store res.1.1 = ing.1.1 ∧
      ∃ tl, res.1.2 =
              [EvSubscribe websocket (channel_of chat_id);
               EvRegister chat_id websocket] ++ ing.1.2 ++ tl ∧
            (tl = [] ∨ tl = [EvDeregister chat_id websocket])
  end.
Proof.
  intros res. subst res.
  destruct (handshake jwt_decode token chat_id websocket w) as [[w1 hs] h] eqn:Hhs.
  simpl. destruct h as [user|]; [|by rewrite /chat_endpoint Hhs].
  assert (authorized jwt_decode token chat_id (store w) user) as Hauth.
  { apply (handshake_active_inv _ _ websocket). by rewrite Hhs. }
  rewrite (handshake_authorized _ _ websocket _ _ Hauth) in Hhs.
  simplify_eq/=. rewrite /chat_endpoint (handshake_authorized _ _ _ _ _ Hauth).
  rewrite serve_spec. simpl.
  set (ing := ingress chat_id user turns (store w)).
  destruct (exit_of turns) as [e|]; [destruct e|]; simpl;
    (split; [done|]);
    try (exists []; rewrite app_nil_r; split; [done|by left]).
  exists [EvDeregister chat_id websocket]. split; [done|by right].
Qed.

(** X10.  A run for a token that is missing, empty or refused by the
    decoder, or for an identity that is not a stored participant of the
    room, returns at once: whatever frames the client would send, the
    store and the registry are as before and nothing is registered, stored
    or published. *)
Theorem unauthorized_run_changes_nothing token chat_id websocket turns w :
  (∀ user, ¬ authorized jwt_decode token chat_id (store w) user) →
  let res := chat_endpoint jwt_decode token chat_id websocket turns w in
  res.2 = Returned ∧ store res.1.1 = store w ∧ manager res.1.1 = manager w ∧
  Forall (λ ev, is_ingress ev = false ∧ ∀ c x, ev ≠ EvRegister c x) res.1.2.
Proof.
  intros Hno res. subst res.
  pose proof (chat_endpoint_run token chat_id websocket turns w) as Hrun.
  destruct (handshake jwt_decode token chat_id websocket w) as [[w1 hs] h] eqn:Hhs.
  simpl in Hrun. destruct h as [user|].
  { exfalso. apply (Hno user), (handshake_active_inv _ _ websocket).
    by rewrite Hhs. }
  rewrite Hrun. simpl.
  pose proof (handshake_events jwt_decode token chat_id websocket w)
    as (Hing & _ & Hstore).
  pose proof (rejected_never_registered jwt_decode _ _ _ _ _ _ Hhs) as [Hm Hreg].
  rewrite Hhs in Hing, Hstore. simpl in *. split_and!; try done.
  apply Forall_forall. intros ev Hev. split.
  - by eapply (proj1 (Forall_forall _ _) Hing).
  - intros c x ->. by apply (Hreg c x).
Qed.

Lemma ingress_sender chat_id user turns (db : DB) :
  Forall (λ ev, match ev with
                | EvCommit msg =>
                    msg_chat_id msg = chat_id ∧ sender msg = preferred_username user
                | EvPublish ch p =>
                    ch = channel_of chat_id ∧
                    payload_sender p = preferred_username user
                | _ => True
                end) (ingress chat_id user turns db).1.2.
Proof.
  revert db. induction turns as [|t turns IH]; intros db; [by constructor|].
  destruct t as [e|data e|data now e|data now]; simpl;
    try (repeat constructor; done).
  set (db1 := mkDB _ _ _ _ _).
  specialize (IH db1). destruct (ingress chat_id user turns db1) as [[db2 evs] ex].
  simpl in *. by repeat constructor.
Qed.

(** X11.  In every run, each message stored and each payload published
    belongs to the room of the connection and carries as sender the
    display name of the verified token, never anything the client sent. *)
Theorem sender_and_room_from_token token chat_id websocket turns w ev :
  ev ∈ (chat_endpoint jwt_decode token chat_id websocket turns w).1.2 →
  match ev with
  | EvCommit msg =>
      msg_chat_id msg = chat_id ∧
      ∃ tok user, token = Some tok ∧ jwt_decode tok = Some user ∧
                  sender msg = preferred_username user
  | EvPublish ch p =>
      ch = channel_of chat_id ∧
      ∃ tok user, token = Some tok ∧ jwt_decode tok = Some user ∧
                  payload_sender p = preferred_username user
  | _ => True
  end.
Proof.
  pose proof (chat_endpoint_run token chat_id websocket turns w) as Hrun.
  pose proof (handshake_events jwt_decode token chat_id websocket w)
    as (Hing & _ & _).
  destruct (handshake jwt_decode token chat_id websocket w) as [[w1 hs] h] eqn:Hhs.
  simpl in Hrun, Hing. destruct h as [user|].
  - destruct Hrun as (_ & tl & -> & Htl). intros Hev.
    assert (authorized jwt_decode token chat_id (store w) user)
      as (tok & _ & -> & _ & Hjwt & _).
    { apply (handshake_active_inv _ _ websocket). by rewrite Hhs. }
    pose proof (ingress_sender chat_id user turns (store w)) as Hsender.
    rewrite !elem_of_cons elem_of_app in Hev.
    destruct Hev as [->|[->|[Hev|Hev]]]; [done..| |].
    + pose proof (proj1 (Forall_forall _ _) Hsender _ Hev) as H.
      destruct ev; try done; naive_solver.
    + destruct Htl as [-> | ->]; destruct ev; try done; set_solver.
  - rewrite Hrun. simpl. intros Hev.
    pose proof (proj1 (Forall_forall _ _) Hing _ Hev) as H.
    by destruct ev.
Qed.

Lemma ingress_store chat_id user turns (db : DB) :
  let ing := ingress chat_id user turns db in
  users ing.1.1 = users db ∧ chats ing.1.1 = chats db ∧
  chat_seq ing.1.1 = chat_seq db ∧
  messages ing.1.1 = messages db ++ commits ing.1.2.
Proof.
  revert db. induction turns as [|t turns IH]; intros db.
  { simpl. by rewrite app_nil_r. }
  destruct t as [e|data e|data now e|data now]; simpl;
    try (by rewrite app_nil_r).
  - done.
  - set (db1 := mkDB _ _ _ _ _).
    specialize (IH db1). destruct (ingress chat_id user turns db1) as [[db2 evs] ex].
    simpl in *. destruct IH as (-> & -> & -> & ->).
    split_and!; try done. by rewrite -assoc.
Qed.

(** X12.  A run never changes the users or the rooms of the store, and
    what it appends to the messages is exactly the messages whose commit
    returned, in that order. *)
Theorem run_appends_committed_messages token chat_id websocket turns w :
  let res := chat_endpoint jwt_decode token chat_id websocket turns w in
  users (store res.1.1) = users (store w) ∧
  chats (store res.1.1) = chats (store w) ∧
  messages (store res.1.1) = messages (store w) ++ commits res.1.2.
Proof.
  intros res. subst res.
  pose proof (chat_endpoint_run token chat_id websocket turns w) as Hrun.
  pose proof (handshake_events jwt_decode token chat_id websocket w)
    as (Hing & _ & Hstore).
  destruct (handshake jwt_decode token chat_id websocket w) as [[w1 hs] h] eqn:Hhs.
  simpl in Hrun, Hing, Hstore. destruct h as [user|].
  - destruct Hrun as (-> & tl & -> & Htl).
    destruct (ingress_store chat_id user turns (store w)) as (-> & -> & _ & ->).
    split_and!; try done. f_equal.
    change (commits (ingress chat_id user turns (store w)).1.2 =
            commits ((ingress chat_id user turns (store w)).1.2 ++ tl)).
    rewrite /commits omap_app.
    by destruct Htl as [-> | ->]; rewrite /= app_nil_r.
  - rewrite Hrun. simpl. rewrite Hstore. split_and!; try done.
    assert (commits hs = []) as ->; [|by rewrite app_nil_r].
    clear -Hing. induction Hing as [|ev hs Hev _ IH]; [done|].
    destruct ev; try done; apply IH.
Qed.

End Admission.

(** The run of a user who is in no room, with a frame ready to send. *)
Lemma unauthorized_run_changes_nothing_witness :
  let res := chat_endpoint sample_jwt_decode (Some "token-of-carol") "r1" 7
               [Relayed "hello" 300] world0 in
  res.2 = Returned ∧ store res.1.1 = store world0 ∧
  manager res.1.1 = manager world0.
Proof.
  intros res.
  assert (∀ user, ¬ authorized sample_jwt_decode (Some "token-of-carol") "r1"
                      (store world0) user) as Hno.
  { intros user Hauth.
    pose proof (f_equal snd
      (handshake_authorized sample_jwt_decode _ _ 7 world0 _ Hauth)) as H.
    vm_compute in H. discriminate. }
  pose proof (unauthorized_run_changes_nothing sample_jwt_decode
                (Some "token-of-carol") "r1" 7 [Relayed "hello" 300] world0 Hno)
    as (H1 & H2 & H3 & _).
  by split_and!.
Defined.

(** What Alice publishes carries the name of her token. *)
Lemma sender_and_room_from_token_witness :
  "chat_channel:r1" = channel_of "r1" ∧
  ∃ tok user, Some "token-of-alice" = Some tok ∧
              sample_jwt_decode tok = Some user ∧
              payload_sender (mkPayload 1 "alice" "yo" 200) = preferred_username user.
Proof.
  apply (sender_and_room_from_token sample_jwt_decode (Some "token-of-alice")
           "r1" 1 [Relayed "yo" 200] world0
           (EvPublish "chat_channel:r1" (mkPayload 1 "alice" "yo" 200))).
  match goal with |- _ ∈ ?l => set (events := l) end.
  vm_compute in events. subst events. rewrite !elem_of_cons. naive_solver.
Defined.

(** ** History pages *)

Section HistoryPages.

Implicit Types (room : string) (limit : Z) (db : DB).





End HistoryPages.



(** ** From the socket to the history, from room creation to the socket *)

Section RoundTrips.

Variable jwt_decode : string → option Claims.

Implicit Types (token : option string) (chat_id : string) (websocket : nat).
Implicit Types (turns : list Turn) (w : World) (user : Claims).


End RoundTrips.


(** ** Rooms: creation, listing, admission *)

Section Rooms.

Variable jwt_decode : string → option Claims.

Implicit Types (chat_id : string) (websocket : nat) (w : World) (db : DB).

Lemma find_head_filter {A} (P : A → Prop) `{∀ x, Decision (P x)} (l : list A) :
  List.find (λ x, bool_decide (P x)) l = head (filter P l).
Proof.
  induction l as [|x l IH]; [done|]. simpl.
  destruct (decide (P x)) as [Hx|Hx].
  - rewrite bool_decide_eq_true_2 // filter_cons_True //.
  - rewrite bool_decide_eq_false_2 // filter_cons_False //.
Qed.

(** X16.  A room that [create_chat] has created admits both of its
    participants at the WebSocket handshake: with a valid token whose
    subject is the caller or the named participant, the connection to the
    returned identifier becomes active. *)
Theorem created_chat_admits_participants
    (chat : ChatCreate) (user : Claims) db user_db user_2 :
  select_user (sub user) db = Some user_db →
  select_user (userId chat) db = Some user_2 →
  ∃ id, (create_chat chat user db).2 = Ok id ∧
    ∀ tok claims websocket w,
      store w = (create_chat chat user db).1 →
      tok ≠ "" → jwt_decode tok = Some claims →
      sub claims = sub user ∨ sub claims = userId chat →
      (handshake jwt_decode (Some tok) id websocket w).2 = Active claims.
Proof.
  intros H1 H2. exists (new_chat_id db).
  set (row := mkChat (new_chat_id db) "" [user_db; user_2]).
  assert (create_chat chat user db =
          (mkDB (users db) (chats db ++ [row]) (messages db)
                (S (chat_seq db)) (msg_seq db), Ok (new_chat_id db))) as ->.
  { unfold create_chat. by rewrite H1 H2. }
  split; [done|].
  intros tok claims websocket w Hstore Hne Hjwt Hsub. cbn [fst] in Hstore.
  assert (∃ u, select_user (sub claims) (store w) = Some u ∧ u ∈ [user_db; user_2])
    as (u & Hsel & Hu).
  { rewrite Hstore. unfold select_user in *. cbn [users].
    destruct Hsub as [-> | ->]; eexists; (split; [eassumption|set_solver]). }
  assert (authorized jwt_decode (Some tok) (new_chat_id db) (store w) claims) as Hauth.
  { exists tok, u. split_and!; try done.
    rewrite Hstore. unfold user_chats. cbn [chats]. rewrite filter_app fmap_app.
    apply elem_of_app. right. rewrite filter_cons_True //.
    rewrite filter_nil. set_solver. }
  by rewrite (handshake_authorized jwt_decode _ _ websocket _ _ Hauth).
Qed.

(** X17.  The rooms [list_chats] returns for an identity are exactly the
    rooms whose handshake admits a valid token of that identity. *)
Theorem listed_rooms_are_the_admitted_ones
    (client_get : string → HttpReply) tok (user : Claims) chat_id websocket w out :
  tok ≠ "" → jwt_decode tok = Some user →
  list_chats client_get user (store w) = Some out →
  chat_id ∈ cd_id <$> out ↔
  (handshake jwt_decode (Some tok) chat_id websocket w).2 = Active user.
Proof.
  intros Hne Hjwt. unfold list_chats, unique_scalar_one_or_none.
  set (rows := filter (λ u, user_id u = sub user) (users (store w))).
  assert (select_user (sub user) (store w) = head rows) as Hsel
    by apply find_head_filter.
  destruct (remove_dups rows) as [|u [|u' more]] eqn:Hrd; [| |done].
  - intros [= <-].
    assert (rows = []) as Hnil.
    { destruct rows as [|x rows']; [done|].
      assert (x ∈ remove_dups (x :: rows')) as Hx
        by (apply elem_of_remove_dups; set_solver).
      rewrite Hrd in Hx. by apply elem_of_nil in Hx. }
    rewrite Hnil in Hsel. simpl in Hsel.
    split; [intros H; by apply elem_of_nil in H|].
    intros Hact. apply handshake_active_inv in Hact
      as (tok' & user_db & _ & _ & _ & Hsel' & _). congruence.
  - intros [= <-].
    assert (head rows = Some u) as Hhead.
    { destruct rows as [|x rows']; [done|]. simpl. f_equal.
      assert (x ∈ remove_dups (x :: rows')) as Hx
        by (apply elem_of_remove_dups; set_solver).
      rewrite Hrd in Hx. set_solver. }
    rewrite Hhead in Hsel. rewrite -list_fmap_compose.
    change (cd_id ∘ _) with Chat_id. split.
    + intros Hin.
      rewrite (handshake_authorized jwt_decode (Some tok) chat_id websocket w user);
        [done|]. by exists tok, u.
    + intros Hact. apply handshake_active_inv in Hact
        as (tok' & user_db & _ & _ & _ & Hsel' & Hin). congruence.
Qed.

(** X18.  The profile service cannot make [list_chats] fail or change
    which rooms and participants it lists: two services differ in the
    pictures only, and with a service that always fails every picture is
    absent.  An identity without a stored user is answered with the empty
    list. *)
Theorem list_chats_survives_profile_service
    (client_get1 client_get2 : string → HttpReply) (user : Claims) db :
  fmap (M:=option) (fmap (M:=list) chat_outline) (list_chats client_get1 user db) =
  fmap (M:=option) (fmap (M:=list) chat_outline) (list_chats client_get2 user db) ∧
  (∀ out cd p, list_chats (λ _, HttpRaises) user db = Some out →
               cd ∈ out → p ∈ cd_participants cd → pd_picture p = None) ∧
  (select_user (sub user) db = None → list_chats client_get1 user db = Some []).
Proof.
  unfold list_chats, unique_scalar_one_or_none.
  set (rows := filter (λ u, user_id u = sub user) (users db)).
  assert (select_user (sub user) db = head rows) as Hsel
    by apply find_head_filter.
  split_and!.
  - destruct (remove_dups rows) as [|u [|u' more]]; [done| |done].
    simpl. f_equal. rewrite -!list_fmap_compose. apply list_fmap_ext.
    intros i chat _. unfold chat_outline. simpl.
    by rewrite -!list_fmap_compose.
  - intros out cd p.
    destruct (remove_dups rows) as [|u [|u' more]]; [| |done].
    + intros [= <-] Hcd. by apply elem_of_nil in Hcd.
    + intros [= <-] Hcd Hp.
      apply list_elem_of_fmap in Hcd as (chat & -> & _). simpl in Hp.
      apply list_elem_of_fmap in Hp as (q & -> & _). done.
  - intros Hnone. rewrite Hnone in Hsel.
    destruct rows as [|x rows']; [done|]. done.
Qed.

End Rooms.

(** Alice creates a room with Carol; Carol's token then opens it. *)
Lemma created_chat_admits_participants_witness :
  let db1 := (create_chat (mkChatCreate "u-carol") (mkClaims "u-alice" "alice")
                sample_db).1 in
  (handshake sample_jwt_decode (Some "token-of-carol") "1" 7
     (mkWorld CM.init db1 [])).2 = Active (mkClaims "u-carol" "carol").
Proof.
  intros db1.
  destruct (created_chat_admits_participants sample_jwt_decode
              (mkChatCreate "u-carol") (mkClaims "u-alice" "alice") sample_db
              alice carol eq_refl eq_refl) as (id & Hid & Hadmit).
  injection Hid as <-.
  apply (Hadmit "token-of-carol" (mkClaims "u-carol" "carol") 7
           (mkWorld CM.init db1 [])); [done|done|done|by right].
Defined.

(** Alice's list and Alice's admission to r1 agree. *)
Lemma listed_rooms_are_the_admitted_ones_witness :
  "r1" ∈ cd_id <$> [mkChatData "r1" ""
                      [mkParticipantData "u-alice" "alice" (Some "alice.png");
                       mkParticipantData "u-bob" "bob" None]] ↔
  (handshake sample_jwt_decode (Some "token-of-alice") "r1" 1 world0).2 =
    Active (mkClaims "u-alice" "alice").
Proof.
  apply (listed_rooms_are_the_admitted_ones sample_jwt_decode sample_client_get
           "token-of-alice" (mkClaims "u-alice" "alice") "r1" 1 world0).
  - discriminate.
  - reflexivity.
  - vm_compute. reflexivity.
Defined.
